(** * Director Bake-Off: a shallow embedding of director_bake_off.py and
    gradio_interface.py

    Text is modelled as [String.string], whose characters are the code
    points U+0000..U+00FF (Latin-1).  Python's [str.isspace] is written out
    on that whole range, and [str.upper] on all of it except U+00B5 and
    U+00FF, whose upper-case forms (U+039C, U+0178) lie outside it; the
    model leaves those two characters unchanged. *)

From Stdlib Require Import String Ascii List ZArith Lia Permutation Sorted.
From stdpp Require Import base list.
Import ListNotations.
Open Scope string_scope.
Open Scope list_scope.

(* ------------------------------------------------------------------ *)
(** ** Python string primitives *)

Module PyStr.

(** [str.isspace] on one character: \t \n \x0b \x0c \r, the
    separators \x1c..\x1f, the space, NEL \x85 and NBSP \xa0. *)
Definition isspace (c : ascii) : bool :=
  let n := nat_of_ascii c in
  (((9 <=? n) && (n <=? 13)) || ((28 <=? n) && (n <=? 32)) ||
   (n =? 133) || (n =? 160))%nat.

(** [str.upper] on one character, a string since it can grow: a..z and
    U+00E0..U+00FE (but U+00F7) move down by 32, U+00DF becomes "SS". *)
Definition upper (c : ascii) : string :=
  let n := nat_of_ascii c in
  if (((97 <=? n) && (n <=? 122)) ||
      ((224 <=? n) && (n <=? 254) && negb (n =? 247)))%nat
  then String (ascii_of_nat (n - 32)%nat) EmptyString
  else if (n =? 223)%nat then "SS"
  else String c EmptyString.

Fixpoint lstrip (s : string) : string :=
  match s with
  | EmptyString => EmptyString
  | String c s' => if isspace c then lstrip s' else s
  end.

Fixpoint rstrip (s : string) : string :=
  match s with
  | EmptyString => EmptyString
  | String c s' =>
      let r := rstrip s' in
      match r with
      | EmptyString => if isspace c then EmptyString else String c EmptyString
      | _ => String c r
      end
  end.

(** [s.strip()] *)
Definition strip (s : string) : string := rstrip (lstrip s).

(** [s.split(",")]: always at least one piece. *)
Fixpoint split_comma (s : string) : list string :=
  match s with
  | EmptyString => [EmptyString]
  | String c s' =>
      if Ascii.eqb c "," then EmptyString :: split_comma s'
      else match split_comma s' with
           | h :: t => String c h :: t
           | [] => [String c EmptyString]
           end
  end.

(** Truthiness of a Python string. *)
Definition truthy (s : string) : bool :=
  match s with EmptyString => false | _ => true end.

(** [", ".join(l)] *)
Definition join (sep : string) (l : list string) : string := String.concat sep l.

End PyStr.

Import PyStr.

(* ------------------------------------------------------------------ *)
(** ** Data model: [DirectorCut], [ResultClass] *)

Record DirectorCut := mkDirectorCut {
  director : string;
  video_idea : string;
  subject_description : string;
  action_description : string;
  setting_description : string;
  cinematic_style : string;
  shot_and_framing : string;
  camera_movement : string;
  lighting_and_color : string
}.

(** The seven cinematic components, in the order of [assemble_prompt]. *)
Definition components (d : DirectorCut) : list string :=
  [d.(subject_description); d.(action_description); d.(setting_description);
   d.(cinematic_style); d.(shot_and_framing); d.(camera_movement);
   d.(lighting_and_color)].

(** [DirectorCut.assemble_prompt]:
    [", ".join(filter(None, [c.strip() for c in components if c]))],
    then [""] if empty, else first character upper-cased plus ["."]. *)
Definition assemble_prompt (d : DirectorCut) : string :=
  let prompt_string :=
    join ", " (List.filter truthy (map strip (List.filter truthy (components d)))) in
  match prompt_string with
  | EmptyString => EmptyString
  | String c rest => (upper c ++ rest ++ ".")%string
  end.

(** Prediction returned by the judge ([director_ranks]). *)
Record JudgeOut := mkJudgeOut {
  director_rankings : list Z;
  explanation : string
}.

Record ResultClass := mkResultClass {
  additional_director : string;
  director_ideas : list DirectorCut;
  director_ranks : JudgeOut
}.

(* ------------------------------------------------------------------ *)
(** ** Director-list parsing in [run_bake_off] (STEP 2) *)

Definition default_directors : list string :=
  ["Quentin Tarantino"; "Alfred Hitchcock"; "Richard Curtis"].

(** [directors : str = None]: [None] is Python's [None]. *)
Definition parse_directors (directors : option string) : list string :=
  match directors with
  | Some s =>
      if truthy (strip s) then
        let l := List.filter (fun d => truthy (strip d)) (split_comma s) in
        let l := map strip l in
        match l with
        | [] => default_directors
        | _ => l
        end
      else default_directors
  | None => default_directors
  end.

(* ------------------------------------------------------------------ *)
(** ** Effects: exceptions, the call log, and the task layer *)

(** Exceptions that can surface from the task layer and the module. *)
Inductive Exc :=
| TransportError (msg : string)   (** any failure raised by a task call *)
| IndexError                      (** [list index out of range] *)
| ValueError                      (** [min() arg is an empty sequence] *)
| SystemExit (code : Z).          (** [sys.exit(code)] *)

(** [isinstance(e, Exception)]: [SystemExit] derives from [BaseException] only. *)
Definition is_Exception (e : Exc) : bool :=
  match e with SystemExit _ => false | _ => true end.

(** [str(e)] *)
Definition exc_str (e : Exc) : string :=
  match e with
  | TransportError msg => msg
  | IndexError => "list index out of range"
  | ValueError => "min() arg is an empty sequence"
  | SystemExit c => match c with 1%Z => "1" | _ => "" end
  end.

(** How a computation ends: a value, a raised exception, or waiting
    forever (an awaited task never completes). *)
Inductive run (A : Type) :=
| Ret (a : A)
| Raise (e : Exc)
| Wait.
Arguments Ret {A} a.
Arguments Raise {A} e.
Arguments Wait {A}.

(** Observable events, in the order the code performs them. *)
Inductive Event :=
| Configure (api_key : string)                       (** [dspy.configure(lm=lm)] *)
| Diagnostic                                         (** the missing-key messages *)
| FindCall (video_idea : string) (dirs : list string) (** [self.findDirector(...)] *)
| GenCall (video_idea : string) (dir : string)        (** [self.genDirectorCut.acall(...)] *)
| JudgeCall (cuts : list DirectorCut)                 (** [self.directorJudge(...)] *)
| Winner (cut : DirectorCut).                         (** [best_idea.director_cut.pretty_print()] *)

(** A computation with a log of events that may raise. *)
Definition M (A : Type) : Type := (list Event * run A)%type.

Definition mret {A} (a : A) : M A := ([], Ret a).

Definition mbind {A B} (m : M A) (k : A -> M B) : M B :=
  match m with
  | (log, Ret a) => let (log2, r) := k a in (log ++ log2, r)
  | (log, Raise e) => (log, Raise e)
  | (log, Wait) => (log, Wait)
  end.

Notation "'let*' x := m 'in' k" := (mbind m (fun x => k))
  (at level 200, x name, m at level 100, k at level 200).

Definition of_sum {A} (r : Exc + A) : run A :=
  match r with inl e => Raise e | inr a => Ret a end.

Definition lift {A} (r : Exc + A) : M A := ([], of_sum r).

Definition emit (ev : Event) : M unit := ([ev], Ret tt).

(** The language-model task layer: each task call returns its output or
    raises. *)
Record Provider := mkProvider {
  find_director : string -> list string -> Exc + string;
  gen_director_cut : string -> string -> Exc + DirectorCut;
  director_judge : list DirectorCut -> Exc + JudgeOut
}.

(* ------------------------------------------------------------------ *)
(** ** [asyncio.gather] *)

(** The tasks are created in submission order; [sched] lists the indices
    of the tasks in the order they complete.  A completed task stores its
    result in its own slot; the first task to fail makes [gather] raise
    its exception; if some task never completes, [gather] waits forever. *)
Fixpoint fill {A} (outs : list (Exc + A)) (sched : list nat)
    (slots : list (option A)) : run (list (option A)) :=
  match sched with
  | [] => Ret slots
  | i :: rest =>
      match outs !! i with
      | Some (inr a) => fill outs rest (<[i := Some a]> slots)
      | Some (inl e) => Raise e
      | None => fill outs rest slots
      end
  end.

Fixpoint collect {A} (slots : list (option A)) : option (list A) :=
  match slots with
  | [] => Some []
  | Some a :: t => match collect t with Some l => Some (a :: l) | None => None end
  | None :: _ => None
  end.

Definition gather {A} (outs : list (Exc + A)) (sched : list nat) : run (list A) :=
  match fill outs sched (repeat None (length outs)) with
  | Ret slots => match collect slots with Some l => Ret l | None => Wait end
  | Raise e => Raise e
  | Wait => Wait
  end.

(* ------------------------------------------------------------------ *)
(** ** [DirectorBakeOff.aforward] *)

Section Orchestrator.

Variable p : Provider.

Definition call_find (video : string) (dirs : list string) : M string :=
  ([FindCall video dirs], of_sum (find_director p video dirs)).

(** STEP 3: one [acall] per director, all submitted before any is awaited. *)
Definition gen_all (video : string) (all_directors : list string)
    (sched : list nat) : M (list DirectorCut) :=
  (map (GenCall video) all_directors,
   gather (map (gen_director_cut p video) all_directors) sched).

Definition call_judge (cuts : list DirectorCut) : M JudgeOut :=
  ([JudgeCall cuts], of_sum (director_judge p cuts)).

(** Python's [min] on a list of ints. *)
Definition py_min (l : list Z) : Exc + Z :=
  match l with
  | [] => inl ValueError
  | x :: t => inr (fold_left Z.min t x)
  end.

(** Python's [list.index]: the first position holding [x]. *)
Fixpoint py_index (l : list Z) (x : Z) : option nat :=
  match l with
  | [] => None
  | y :: t => if Z.eqb y x then Some 0 else option_map S (py_index t x)
  end.

(** STEP 6: [best_rank = min(...)], [best_index = ....index(best_rank)],
    [best_idea = director_ideas[best_index]]. *)
Definition select_best (rankings : list Z) (ideas : list DirectorCut)
    : Exc + DirectorCut :=
  match py_min rankings with
  | inl e => inl e
  | inr best_rank =>
      match py_index rankings best_rank with
      | None => inl ValueError
      | Some best_index =>
          match ideas !! best_index with
          | Some d => inr d
          | None => inl IndexError
          end
      end
  end.

Definition aforward (sched : list nat) (video : string) (directors : list string)
    : M ResultClass :=
  let* additional_director := call_find video directors in
  let all_directors := directors ++ [additional_director] in
  let* ideas := gen_all video all_directors sched in
  let* ranks := call_judge ideas in
  let* best := lift (select_best (director_rankings ranks) ideas) in
  let* _ := emit (Winner best) in
  mret (mkResultClass additional_director ideas ranks).

End Orchestrator.

(* ------------------------------------------------------------------ *)
(** ** Provider setup and [run_bake_off] *)

Record LM := mkLM { lm_model : string; lm_api_key : string }.

(** [setup_dspy_provider]: [env_key] is [os.getenv('OPENROUTER_API_KEY')];
    the global [lm] is threaded explicitly. *)
Definition setup_dspy_provider (env_key : option string) (lm : option LM)
    : option LM * M string :=
  match env_key with
  | Some k =>
      if truthy k
      then (Some (mkLM "openrouter/moonshotai/kimi-k2:free" k),
            ([Configure k], Ret "openrouter"))
      else (lm, ([Diagnostic], Raise (SystemExit 1)))
  | None => (lm, ([Diagnostic], Raise (SystemExit 1)))
  end.

(** Module import: [load_dotenv()] and [lm = None]; nothing is read from
    the key and nothing can exit. *)
Definition module_import (env_key : option string) : option LM * run unit :=
  (None, Ret tt).

(** [run_bake_off(video_idea, directors)]. *)
Definition run_bake_off (env_key : option string) (lm : option LM) (p : Provider)
    (sched : list nat) (video : string) (directors : option string)
    : option LM * M ResultClass :=
  let (lm', setup) :=
    match lm with
    | None => setup_dspy_provider env_key lm
    | Some h => (Some h, mret "")
    end in
  (lm', let* _ := setup in
        aforward p sched video (parse_directors directors)).

(* ------------------------------------------------------------------ *)
(** ** gradio_interface.py: [format_results_html] *)

(** The HTML fragments the interface produces, by template. *)
Inductive Fragment :=
| NoResults                                  (** "No results to display." *)
| ResultsPage (additional : string) (cards : list (Z * DirectorCut))
    (explanation : string)                   (** header, ranked cards, reasoning *)
| FormatErrorPanel (msg : string)            (** "Error formatting results: {str(e)}" *)
| GuardMessage                               (** "Please enter a video idea ..." *)
| LoadingMessage                             (** "Director Bake-Off in Progress..." *)
| ErrorPanel (msg : string) (trace : Exc).   (** "Something went wrong!" + format_exc() *)

(** Whether a fragment carries [traceback.format_exc()]. *)
Definition has_trace (f : Fragment) : bool :=
  match f with ErrorPanel _ _ => true | _ => false end.

(** The [enumerate] loop: [rank = result.director_ranks.director_rankings[i]]. *)
Fixpoint build_ranked (ideas : list DirectorCut) (rankings : list Z)
    : Exc + list (Z * DirectorCut) :=
  match ideas with
  | [] => inr []
  | d :: t =>
      match rankings with
      | [] => inl IndexError
      | r :: rs =>
          match build_ranked t rs with
          | inl e => inl e
          | inr l => inr ((r, d) :: l)
          end
      end
  end.

(** [ranked_ideas.sort(key=lambda x: x[0])]: Python's sort is stable, so
    its result is the one of a stable insertion sort on the key. *)
Fixpoint insert_by_rank (x : Z * DirectorCut) (l : list (Z * DirectorCut))
    : list (Z * DirectorCut) :=
  match l with
  | [] => [x]
  | y :: t => if Z.ltb x.1 y.1 then x :: y :: t else y :: insert_by_rank x t
  end.

Definition sort_by_rank (l : list (Z * DirectorCut)) : list (Z * DirectorCut) :=
  fold_left (fun acc x => insert_by_rank x acc) l [].

(** The body of the [try] block. *)
Definition format_body (r : ResultClass) : Exc + Fragment :=
  match build_ranked r.(director_ideas) r.(director_ranks).(director_rankings) with
  | inl e => inl e
  | inr ranked_ideas =>
      inr (ResultsPage r.(additional_director) (sort_by_rank ranked_ideas)
             r.(director_ranks).(explanation))
  end.

(** [format_results_html(result)]; [None] stands for a falsy [result]. *)
Definition format_results_html (result : option ResultClass) : Exc + Fragment :=
  match result with
  | None => inr NoResults
  | Some r =>
      match format_body r with
      | inr f => inr f
      | inl e => if is_Exception e then inr (FormatErrorPanel (exc_str e)) else inl e
      end
  end.

(* ------------------------------------------------------------------ *)
(** ** [run_director_bakeoff] (a generator) and [handle_submit] *)

Inductive UIEvent :=
| Yield (f : Fragment)
| CallRunBakeOff (video_idea : string) (directors : option string).

(** How a generator body ends: [return v] (the value of [StopIteration]),
    an exception leaving it, or suspension on a call that never returns. *)
Inductive GenEnd :=
| Returned (v : option Fragment)
| Raised (e : Exc)
| Suspended.

(** The [except Exception as e] handler of [run_director_bakeoff]. *)
Definition bakeoff_handler (prefix : list UIEvent) (e : Exc) : list UIEvent * GenEnd :=
  if is_Exception e
  then (prefix ++ [Yield (ErrorPanel (exc_str e) e)], Returned None)
  else (prefix, Raised e).

(** The generator [run_director_bakeoff(video_idea, directors)]: [rb] is the
    [run_bake_off] it calls.  Since the body contains [yield], the [return]
    of the guard ends the iteration without producing an item. *)
Definition run_director_bakeoff (rb : string -> option string -> run ResultClass)
    (video : option string) (directors : option string) : list UIEvent * GenEnd :=
  match video with
  | None => ([], Returned (Some GuardMessage))
  | Some v =>
      if negb (truthy v) || negb (truthy (strip v))
      then ([], Returned (Some GuardMessage))
      else
        let prefix := [Yield LoadingMessage; CallRunBakeOff v directors] in
        match rb v directors with
        | Ret result =>
            match format_results_html (Some result) with
            | inr formatted_html => (prefix ++ [Yield formatted_html], Returned None)
            | inl e => bakeoff_handler prefix e
            end
        | Raise e => bakeoff_handler prefix e
        | Wait => (prefix, Suspended)
        end
  end.

Definition yields (evs : list UIEvent) : list Fragment :=
  flat_map (fun ev => match ev with Yield f => [f] | _ => [] end) evs.

(** [gr.update(value=result, visible=True)] *)
Record Update := mkUpdate { value : Fragment; visible : bool }.

(** [handle_submit]: a [for] loop over the generator, re-yielding each item;
    the generator's return value is dropped. *)
Definition handle_submit (rb : string -> option string -> run ResultClass)
    (video : option string) (directors : option string) : list Update * GenEnd :=
  let (evs, fin) := run_director_bakeoff rb video directors in
  (map (fun f => mkUpdate f true) (yields evs),
   match fin with
   | Returned _ => Returned None
   | Raised e => Raised e
   | Suspended => Suspended
   end).

(* ================================================================== *)
(** * Properties *)

(* ------------------------------------------------------------------ *)
(** ** Whitespace and [strip] *)

Fixpoint all_space (s : string) : bool :=
  match s with
  | EmptyString => true
  | String c s' => isspace c && all_space s'
  end.

Lemma rstrip_empty_iff (s : string) : rstrip s = EmptyString <-> all_space s = true.
Proof.
  induction s as [|c s IH]; simpl; [tauto|].
  destruct (rstrip s) eqn:E.
  - destruct (isspace c); simpl; [tauto|].
    split; [discriminate|]. intros Hf; discriminate Hf.
  - split; [discriminate|].
    intros Hc. apply andb_prop in Hc as [_ Hs].
    apply IH in Hs. discriminate Hs.
Qed.

Lemma all_space_lstrip (s : string) : all_space (lstrip s) = all_space s.
Proof.
  induction s as [|c s IH]; simpl; [reflexivity|].
  destruct (isspace c) eqn:E; simpl; [exact IH|].
  rewrite E. reflexivity.
Qed.

Lemma strip_empty_iff (s : string) : strip s = EmptyString <-> all_space s = true.
Proof. unfold strip. rewrite rstrip_empty_iff, all_space_lstrip. tauto. Qed.

Lemma strip_empty : strip EmptyString = EmptyString.
Proof. reflexivity. Qed.

Lemma truthy_false (s : string) : truthy s = false <-> s = EmptyString.
Proof. destruct s; simpl; split; congruence. Qed.

(** Every piece of [s.split(",")] of an all-whitespace [s] is all-whitespace. *)
Lemma split_comma_all_space (s : string) :
  all_space s = true -> Forall (fun d => all_space d = true) (split_comma s).
Proof.
  induction s as [|c s IH]; simpl; intros H.
  - constructor; [reflexivity|constructor].
  - apply andb_prop in H as [Hc Hs]. specialize (IH Hs).
    destruct (Ascii.eqb c ","); [constructor; [reflexivity|exact IH]|].
    destruct (split_comma s) as [|h t]; simpl.
    + constructor; [simpl; rewrite Hc; reflexivity|constructor].
    + inversion IH; subst. constructor; [simpl; rewrite Hc; auto|auto].
Qed.

(* ------------------------------------------------------------------ *)
(** ** Director-list parsing *)

(** The parsing rule as the specification states it: split on commas, trim,
    drop empty entries, and fall back to the defaults when nothing remains
    or no string was given. *)
Definition parse_directors_as_specified (directors : option string) : list string :=
  match directors with
  | None => default_directors
  | Some s =>
      match map strip (List.filter (fun d => truthy (strip d)) (split_comma s)) with
      | [] => default_directors
      | l => l
      end
  end.

Lemma filter_all_empty (l : list string) :
  Forall (fun d => all_space d = true) l ->
  List.filter (fun d => truthy (strip d)) l = [].
Proof.
  induction l as [|d l IH]; simpl; intros H; [reflexivity|].
  inversion H; subst.
  assert (strip d = EmptyString) as -> by (apply strip_empty_iff; assumption).
  simpl. auto.
Qed.

Lemma strip_is_empty_parse (s : string) :
  truthy (strip s) = false ->
  map strip (List.filter (fun d => truthy (strip d)) (split_comma s)) = [].
Proof.
  intros H. apply truthy_false, strip_empty_iff in H.
  rewrite filter_all_empty; [reflexivity|].
  apply split_comma_all_space; assumption.
Qed.

(** C5: [run_bake_off]'s parsing of the director string is the specified
    rule: split on commas, trim each entry, drop the empty ones, and use the
    three default directors for [None], for [""] and for any string that
    leaves no entry; ["  Wes Anderson ,  , Bong Joon-ho "] parses to
    [["Wes Anderson"; "Bong Joon-ho"]]. *)
Theorem parse_directors_spec :
  (forall directors : option string,
     parse_directors directors = parse_directors_as_specified directors) /\
  parse_directors None = default_directors /\
  parse_directors (Some "") = default_directors /\
  parse_directors (Some "  Wes Anderson ,  , Bong Joon-ho ") =
    ["Wes Anderson"; "Bong Joon-ho"].
Proof.
  split; [|split; [reflexivity|split; reflexivity]].
  intros [s|]; [|reflexivity]. unfold parse_directors, parse_directors_as_specified.
  destruct (truthy (strip s)) eqn:E.
  - destruct (map strip _); reflexivity.
  -
    rewrite strip_is_empty_parse by exact E. reflexivity.
Qed.

(* ------------------------------------------------------------------ *)
(** ** [assemble_prompt] *)

(** [s.endswith(suf)] *)
Definition ends_with (suf s : string) : bool :=
  ((String.length suf <=? String.length s)%nat &&
   String.eqb (substring (String.length s - String.length suf)
                 (String.length suf) s) suf).

Lemma kept_components (cs : list string) :
  Forall (fun c => strip c <> EmptyString) cs ->
  List.filter truthy (map strip (List.filter truthy cs)) = map strip cs.
Proof.
  induction cs as [|c cs IH]; simpl; intros H; [reflexivity|].
  inversion H as [|? ? Hc Hcs]; subst.
  destruct c as [|a c']; [contradiction Hc; reflexivity|]. simpl.
  destruct (strip (String a c')) eqn:E; [contradiction|]. simpl.
  f_equal. auto.
Qed.

Lemma dropped_components (cs : list string) :
  Forall (fun c => strip c = EmptyString) cs ->
  List.filter truthy (map strip (List.filter truthy cs)) = [].
Proof.
  induction cs as [|c cs IH]; simpl; intros H; [reflexivity|].
  inversion H as [|? ? Hc Hcs]; subst.
  destruct (truthy c); simpl; [rewrite Hc; simpl|]; auto.
Qed.

(** C4 (amended): [assemble_prompt] strips the seven fields, keeps those
    that are not empty after stripping, joins them with [", "], upper-cases
    the first character and appends one ["."].  When every field is
    non-empty after stripping, the result is the seven stripped fields
    joined by [", "], first character upper-cased, followed by ["."]; when
    every field is empty (or blank), the result is [""]. *)
Theorem assemble_prompt_spec (d : DirectorCut) :
  (Forall (fun c => strip c <> EmptyString) (components d) ->
   exists c rest,
     join ", " (map strip (components d)) = String c rest /\
     assemble_prompt d = (upper c ++ rest ++ ".")%string) /\
  (Forall (fun c => strip c = EmptyString) (components d) ->
   assemble_prompt d = EmptyString).
Proof.
  split; intros H; unfold assemble_prompt.
  - rewrite kept_components by exact H.
    destruct d as [dir vi s1 s2 s3 s4 s5 s6 s7]; unfold components in *.
    cbn [subject_description action_description setting_description cinematic_style
         shot_and_framing camera_movement lighting_and_color map] in H |- *.
    inversion H as [|? ? Hx _]; subst.
    destruct (strip s1) as [|a r] eqn:E; [contradiction|].
    unfold join. cbn [String.concat String.append].
    do 2 eexists. split; reflexivity.
  - rewrite dropped_components by exact H. reflexivity.
Qed.

Definition cut_trailing_period : DirectorCut :=
  mkDirectorCut "Wes Anderson" "a lighthouse at dawn"
    "a keeper" "climbs" "a lighthouse" "symmetric pastel" "wide shot"
    "static" "soft dawn light.".

(** C4 (counterexample): a breakdown whose seven fields are all non-empty
    but whose last field already ends in a period yields a prompt ending in
    two periods. *)
Lemma assemble_prompt_double_period :
  Forall (fun c => c <> EmptyString) (components cut_trailing_period) /\
  assemble_prompt cut_trailing_period =
    "A keeper, climbs, a lighthouse, symmetric pastel, wide shot, static, soft dawn light.." /\
  ends_with ".." (assemble_prompt cut_trailing_period) = true.
Proof.
  split; [repeat constructor; discriminate|split; reflexivity].
Qed.

(* ------------------------------------------------------------------ *)
(** ** Winner selection *)

Lemma fold_min_le_init (t : list Z) (x : Z) : (fold_left Z.min t x <= x)%Z.
Proof.
  revert x. induction t as [|z t IH]; simpl; intros x; [lia|].
  specialize (IH (Z.min x z)). lia.
Qed.

Lemma fold_min_le (t : list Z) (x y : Z) :
  In y (x :: t) -> (fold_left Z.min t x <= y)%Z.
Proof.
  revert x. induction t as [|z t IH]; simpl; intros x Hy.
  - destruct Hy as [<-|[]]. lia.
  - destruct Hy as [E|[E|Hy]].
    + pose proof (fold_min_le_init t (Z.min x z)). lia.
    + pose proof (fold_min_le_init t (Z.min x z)). lia.
    + apply IH. right. exact Hy.
Qed.

Lemma fold_min_in (t : list Z) (x : Z) : In (fold_left Z.min t x) (x :: t).
Proof.
  revert x. induction t as [|z t IH]; simpl; intros x; [left; reflexivity|].
  destruct (IH (Z.min x z)) as [E|E].
  - destruct (Z.min_spec x z) as [[_ M]|[_ M]]; rewrite M in *;
      [left; exact E|right; left; exact E].
  - right; right; exact E.
Qed.

Lemma py_index_spec (l : list Z) (m : Z) (i : nat) :
  py_index l m = Some i ->
  l !! i = Some m /\ (forall j, (j < i)%nat -> l !! j <> Some m).
Proof.
  revert i. induction l as [|y l IH]; simpl; intros i H; [discriminate|].
  destruct (Z.eqb_spec y m) as [->|Hne].
  - injection H as <-. split; [reflexivity|intros j Hj; lia].
  - destruct (py_index l m) as [k|] eqn:E; simpl in H; [|discriminate].
    injection H as <-. destruct (IH k eq_refl) as [Hk Hlt].
    split; [exact Hk|].
    intros [|j] Hj; simpl; [congruence|]. apply Hlt. lia.
Qed.

Lemma py_index_found (l : list Z) (m : Z) : In m l -> exists i, py_index l m = Some i.
Proof.
  induction l as [|y l IH]; simpl; intros H; [contradiction|].
  destruct (Z.eqb_spec y m); [eexists; reflexivity|].
  destruct H as [->|H]; [contradiction|].
  destruct (IH H) as [i ->]. eexists. reflexivity.
Qed.

(** C2: for a non-empty rank sequence, [select_best] (STEP 6 of
    [aforward]) picks the breakdown at the first index holding the minimum
    rank, and raises [IndexError] only when there is no breakdown at that
    index; for ranks [[2; 1; 1; 3]] it picks the breakdown at index 1. *)
Theorem select_best_first_min (rankings : list Z) (ideas : list DirectorCut)
    (a b c d : DirectorCut) (Hne : rankings <> []) :
  (exists i m,
     rankings !! i = Some m /\
     (forall j x, rankings !! j = Some x -> (m <= x)%Z) /\
     (forall j x, (j < i)%nat -> rankings !! j = Some x -> (m < x)%Z) /\
     select_best rankings ideas =
       match ideas !! i with Some w => inr w | None => inl IndexError end) /\
  select_best [2; 1; 1; 3]%Z [a; b; c; d] = inr b.
Proof.
  split; [|reflexivity].
  destruct rankings as [|x t]; [contradiction|].
  set (m := fold_left Z.min t x).
  destruct (py_index_found (x :: t) m (fold_min_in t x)) as [i Hi].
  destruct (py_index_spec _ _ _ Hi) as [Hli Hlt].
  exists i, m. split; [exact Hli|]. split; [|split].
  - intros j y Hj. apply fold_min_le. apply list_elem_of_In.
    eapply list_elem_of_lookup_2. exact Hj.
  - intros j y Hj Hy.
    assert (m <= y)%Z by (apply fold_min_le, list_elem_of_In;
                          eapply list_elem_of_lookup_2; exact Hy).
    assert (y <> m) by (intros ->; exact (Hlt j Hj Hy)). lia.
  - unfold select_best. cbn [py_min]. change (fold_left Z.min t x) with m. rewrite Hi. reflexivity.
Qed.

(* ------------------------------------------------------------------ *)
(** ** Presentation order *)

Definition rank_le (x y : Z * DirectorCut) : Prop := (x.1 <= y.1)%Z.

Lemma insert_by_rank_perm (x : Z * DirectorCut) (l : list (Z * DirectorCut)) :
  Permutation (insert_by_rank x l) (x :: l).
Proof.
  induction l as [|y l IH]; simpl; [reflexivity|].
  destruct (Z.ltb x.1 y.1); [reflexivity|].
  rewrite IH. apply perm_swap.
Qed.

Lemma insert_by_rank_hd (x y : Z * DirectorCut) (l : list (Z * DirectorCut)) :
  HdRel rank_le y l -> rank_le y x -> HdRel rank_le y (insert_by_rank x l).
Proof.
  destruct l as [|z l]; simpl; intros H Hyx; [constructor; exact Hyx|].
  destruct (Z.ltb x.1 z.1); constructor; [exact Hyx|inversion H; assumption].
Qed.

Lemma insert_by_rank_sorted (x : Z * DirectorCut) (l : list (Z * DirectorCut)) :
  Sorted rank_le l -> Sorted rank_le (insert_by_rank x l).
Proof.
  induction l as [|y l IH]; simpl; intros H; [repeat constructor|].
  inversion H as [|? ? Hl Hhd]; subst.
  destruct (Z.ltb_spec x.1 y.1) as [Hlt|Hge].
  - constructor; [exact H|constructor; unfold rank_le; lia].
  - constructor; [apply IH; exact Hl|].
    apply insert_by_rank_hd; [exact Hhd|unfold rank_le; lia].
Qed.

Lemma sort_by_rank_fold (l acc : list (Z * DirectorCut)) :
  Sorted rank_le acc ->
  Sorted rank_le (fold_left (fun acc x => insert_by_rank x acc) l acc) /\
  Permutation (fold_left (fun acc x => insert_by_rank x acc) l acc) (acc ++ l).
Proof.
  revert acc. induction l as [|x l IH]; simpl; intros acc H.
  - rewrite app_nil_r. split; [exact H|reflexivity].
  - destruct (IH (insert_by_rank x acc)) as [Hs Hp];
      [apply insert_by_rank_sorted; exact H|].
    split; [exact Hs|]. rewrite Hp, insert_by_rank_perm.
    rewrite <- Permutation_middle. reflexivity.
Qed.

Lemma sort_by_rank_spec (l : list (Z * DirectorCut)) :
  Sorted rank_le (sort_by_rank l) /\ Permutation (sort_by_rank l) l.
Proof. apply (sort_by_rank_fold l []). constructor. Qed.

Lemma build_ranked_combine (ideas : list DirectorCut) (rankings : list Z)
    (l : list (Z * DirectorCut)) :
  build_ranked ideas rankings = inr l -> l = combine rankings ideas.
Proof.
  revert rankings l. induction ideas as [|d t IH]; intros [|r rs] l; simpl;
    try (intros H; injection H as <-; reflexivity); try discriminate.
  destruct (build_ranked t rs) as [e|l'] eqn:E; [discriminate|].
  intros H; injection H as <-. rewrite (IH rs l' E). reflexivity.
Qed.

Definition cut_named (name : string) : DirectorCut :=
  mkDirectorCut name "a lighthouse at dawn" "s" "a" "e" "c" "f" "m" "l".

Definition result_abc : ResultClass :=
  mkResultClass "C" [cut_named "A"; cut_named "B"; cut_named "C"]
    (mkJudgeOut [3; 1; 2]%Z "").

(** C7: whenever [format_results_html] renders the ranked cards, they are
    the (rank, breakdown) pairs correlated by position, sorted by rank in
    ascending order; breakdowns ["A"; "B"; "C"] with ranks [[3; 1; 2]]
    render as B, C, A. *)
Theorem format_results_sorted (r : ResultClass) (add expl : string)
    (cards : list (Z * DirectorCut))
    (H : format_results_html (Some r) = inr (ResultsPage add cards expl)) :
  Sorted rank_le cards /\
  Permutation cards (combine r.(director_ranks).(director_rankings) r.(director_ideas)) /\
  (exists add' expl' cards',
     format_results_html (Some result_abc) = inr (ResultsPage add' cards' expl') /\
     map (fun c => c.2.(director)) cards' = ["B"; "C"; "A"]).
Proof.
  split; [|split].
  1, 2: unfold format_results_html, format_body in H;
    destruct (build_ranked _ _) as [e|l] eqn:E;
    [destruct (is_Exception e); discriminate|];
    injection H as _ <- _; apply build_ranked_combine in E; subst l;
    apply sort_by_rank_spec.
  do 3 eexists. split; reflexivity.
Qed.

(* ------------------------------------------------------------------ *)
(** ** The submit handler *)

(** C10: for an absent, empty or blank video idea, [run_director_bakeoff]
    performs no event at all (in particular it never calls [run_bake_off])
    and ends by [return]ing the guard message; since it is a generator, that
    message is not an item, so [handle_submit] emits no update. *)
Theorem blank_idea_no_output (rb : string -> option string -> run ResultClass)
    (video directors : option string)
    (H : video = None \/ exists v, video = Some v /\ strip v = EmptyString) :
  run_director_bakeoff rb video directors = ([], Returned (Some GuardMessage)) /\
  handle_submit rb video directors = ([], Returned None).
Proof.
  destruct H as [->|[v [-> Hv]]]; [split; reflexivity|].
  assert (Hc : negb (truthy v) || negb (truthy (strip v)) = true)
    by (rewrite Hv; apply orb_true_r).
  unfold handle_submit, run_director_bakeoff. rewrite Hc. split; reflexivity.
Qed.

(* ------------------------------------------------------------------ *)
(** ** Formatting failures *)

Lemma build_ranked_error (ideas : list DirectorCut) (rankings : list Z) (e : Exc) :
  build_ranked ideas rankings = inl e -> e = IndexError.
Proof.
  revert rankings. induction ideas as [|d t IH]; intros [|r rs]; simpl;
    try discriminate; [intros H; injection H as <-; reflexivity|].
  destruct (build_ranked t rs) eqn:E; [|discriminate].
  intros H; injection H as <-. exact (IH rs E).
Qed.

Lemma format_body_error (r : ResultClass) (e : Exc) :
  format_body r = inl e -> e = IndexError.
Proof.
  unfold format_body. destruct (build_ranked _ _) eqn:E; [|discriminate].
  intros H; injection H as <-. exact (build_ranked_error _ _ _ E).
Qed.

Definition result_short_ranks : ResultClass :=
  mkResultClass "C" [cut_named "A"; cut_named "B"] (mkJudgeOut [1]%Z "").

(** C8 (counterexample): when formatting fails (here fewer ranks than
    breakdowns, an [IndexError]), [format_results_html] returns its own
    error panel, which holds [str(e)] but no trace, and the handler yields
    that panel. *)
Lemma format_error_panel_has_no_trace :
  format_body result_short_ranks = inl IndexError /\
  format_results_html (Some result_short_ranks) =
    inr (FormatErrorPanel "list index out of range") /\
  has_trace (FormatErrorPanel "list index out of range") = false /\
  run_director_bakeoff (fun _ _ => Ret result_short_ranks)
    (Some "a lighthouse at dawn") None =
    ([Yield LoadingMessage; CallRunBakeOff "a lighthouse at dawn" None;
      Yield (FormatErrorPanel "list index out of range")], Returned None).
Proof. repeat split; reflexivity. Qed.

(** C8 (amended): for every successful orchestrator result, formatting never
    raises: when the formatting body raises [e], [format_results_html]
    catches it and returns an error panel holding only [str(e)] (no trace);
    [run_director_bakeoff] then yields the progress placeholder followed by
    that fragment and finishes normally. *)
Theorem format_results_never_raises (r : ResultClass) (v : string)
    (directors : option string) :
  exists f,
    format_results_html (Some r) = inr f /\
    (forall e, format_body r = inl e -> f = FormatErrorPanel (exc_str e)) /\
    has_trace f = false /\
    (truthy (strip v) = true ->
     handle_submit (fun _ _ => Ret r) (Some v) directors =
       ([mkUpdate LoadingMessage true; mkUpdate f true], Returned None)).
Proof.
  unfold format_results_html.
  destruct (format_body r) as [e|f] eqn:E.
  - pose proof (format_body_error r e E) as ->. simpl.
    eexists. split; [reflexivity|]. split; [intros e He; injection He as <-; reflexivity|].
    split; [reflexivity|].
    intros Hv. unfold handle_submit, run_director_bakeoff. rewrite Hv.
    destruct v as [|a v']; [discriminate|]. simpl.
    unfold format_results_html. rewrite E. reflexivity.
  - exists f. split; [reflexivity|]. split; [congruence|].
    split.
    + unfold format_body in E. destruct (build_ranked _ _); [discriminate|].
      injection E as <-. reflexivity.
    + intros Hv. unfold handle_submit, run_director_bakeoff. rewrite Hv.
      destruct v as [|a v']; [discriminate|]. simpl.
      unfold format_results_html. rewrite E. reflexivity.
Qed.

(* ------------------------------------------------------------------ *)
(** ** [asyncio.gather]: results by submission index *)

Section Gather.

Context {A : Type}.

Lemma fill_slots (outs : list (Exc + A)) (sched : list nat)
    (slots slots' : list (option A)) :
  fill outs sched slots = Ret slots' ->
  length slots' = length slots /\
  (forall k a, slots' !! k = Some (Some a) ->
     slots !! k = Some (Some a) \/ outs !! k = Some (inr a)).
Proof.
  revert slots. induction sched as [|i rest IH]; simpl; intros slots H.
  - injection H as <-. split; [reflexivity|auto].
  - destruct (outs !! i) as [[e|a]|] eqn:Ei; [discriminate| |].
    + destruct (IH _ H) as [Hlen Hk]. rewrite length_insert in Hlen.
      split; [exact Hlen|]. intros k b Hb.
      destruct (Hk k b Hb) as [Hs|Ho]; [|right; exact Ho].
      apply list_lookup_insert_Some in Hs as [[-> [Hab _]]|[_ Hs]].
      * injection Hab as ->. right. exact Ei.
      * left. exact Hs.
    + exact (IH _ H).
Qed.

Lemma repeat_none_lookup (n k : nat) (a : A) :
  repeat (None : option A) n !! k <> Some (Some a).
Proof.
  revert k. induction n as [|n IH]; intros [|k]; simpl; try discriminate.
  apply IH.
Qed.

Lemma collect_map (slots : list (option A)) (l : list A) :
  collect slots = Some l -> slots = map Some l.
Proof.
  revert l. induction slots as [|[a|] t IH]; simpl; intros l H.
  - injection H as <-. reflexivity.
  - destruct (collect t) as [l'|] eqn:E; [|discriminate].
    injection H as <-. simpl. rewrite (IH l' eq_refl). reflexivity.
  - discriminate.
Qed.

(** Whatever the completion order, the list [gather] returns holds the
    result of task [k] at position [k]. *)
Lemma gather_ret (outs : list (Exc + A)) (sched : list nat) (l : list A) :
  gather outs sched = Ret l -> outs = map inr l.
Proof.
  unfold gather.
  destruct (fill outs sched (repeat None (length outs))) as [slots| |] eqn:F;
    try discriminate.
  destruct (collect slots) as [l'|] eqn:C; [|discriminate].
  intros H; injection H as <-.
  apply collect_map in C. subst slots.
  destruct (fill_slots _ _ _ _ F) as [Hlen Hk].
  rewrite length_map, repeat_length in Hlen.
  apply list_eq. intros k.
  rewrite list_lookup_fmap.
  destruct (l' !! k) as [a|] eqn:La; simpl.
  - destruct (Hk k a) as [Hr|Ho].
    + rewrite list_lookup_fmap, La. reflexivity.
    + exfalso. exact (repeat_none_lookup _ _ _ Hr).
    + exact Ho.
  - apply lookup_ge_None_2. apply lookup_ge_None_1 in La. lia.
Qed.

(** If a task that fails is among the completed ones, [gather] raises the
    exception of the first failing task to complete. *)
Lemma fill_raise (outs : list (Exc + A)) (sched : list nat)
    (slots : list (option A)) (i : nat) (e : Exc) :
  In i sched -> outs !! i = Some (inl e) ->
  exists j e', outs !! j = Some (inl e') /\ fill outs sched slots = Raise e'.
Proof.
  revert slots. induction sched as [|i0 rest IH]; simpl; intros slots Hin Hi;
    [contradiction|].
  destruct (outs !! i0) as [[e0|a]|] eqn:E0.
  - exists i0, e0. split; [exact E0|reflexivity].
  - destruct Hin as [->|Hin]; [congruence|]. apply IH; assumption.
  - destruct Hin as [->|Hin]; [congruence|]. apply IH; assumption.
Qed.

Lemma gather_raise (outs : list (Exc + A)) (sched : list nat) (i : nat) (e : Exc) :
  In i sched -> outs !! i = Some (inl e) ->
  exists j e', outs !! j = Some (inl e') /\ gather outs sched = Raise e'.
Proof.
  intros Hin Hi. destruct (fill_raise outs sched (repeat None (length outs)) i e Hin Hi)
    as [j [e' [Hj F]]].
  exists j, e'. split; [exact Hj|]. unfold gather. rewrite F. reflexivity.
Qed.

Lemma fill_complete (outs : list (Exc + A)) (sched : list nat)
    (slots : list (option A)) :
  length slots = length outs ->
  (forall k, (k < length outs)%nat -> exists a, outs !! k = Some (inr a)) ->
  (forall k, (k < length outs)%nat -> In k sched \/ exists a, slots !! k = Some (Some a)) ->
  exists slots', fill outs sched slots = Ret slots' /\
    length slots' = length outs /\
    (forall k, (k < length outs)%nat -> exists a, slots' !! k = Some (Some a)).
Proof.
  revert slots. induction sched as [|i rest IH]; simpl; intros slots Hlen Hok Hcov.
  - exists slots. split; [reflexivity|]. split; [exact Hlen|].
    intros k Hk. destruct (Hcov k Hk) as [[]|Hs]. exact Hs.
  - destruct (outs !! i) as [[e|a]|] eqn:Ei.
    + assert (i < length outs)%nat by (apply lookup_lt_Some in Ei; exact Ei).
      destruct (Hok i H) as [a Ha]. congruence.
    + apply IH; [rewrite length_insert; exact Hlen|exact Hok|].
      intros k Hk. destruct (decide (k = i)) as [->|Hne].
      * right. exists a. apply list_lookup_insert_eq.
        rewrite Hlen. apply lookup_lt_Some in Ei. exact Ei.
      * rewrite list_lookup_insert_ne by congruence.
        destruct (Hcov k Hk) as [[->|Hin]|Hs]; [congruence|left; exact Hin|right; exact Hs].
    + apply IH; [exact Hlen|exact Hok|].
      intros k Hk. destruct (Hcov k Hk) as [[->|Hin]|Hs].
      * apply lookup_ge_None_1 in Ei. lia.
      * left. exact Hin.
      * right. exact Hs.
Qed.

Lemma collect_full (slots : list (option A)) :
  (forall k, (k < length slots)%nat -> exists a, slots !! k = Some (Some a)) ->
  exists l, collect slots = Some l.
Proof.
  induction slots as [|o t IH]; simpl; intros H; [eexists; reflexivity|].
  destruct (H 0%nat ltac:(lia)) as [a Ha]. simpl in Ha. injection Ha as ->.
  destruct IH as [l ->]; [|eexists; reflexivity].
  intros k Hk. apply (H (S k)). lia.
Qed.

(** When every task succeeds and every task completes, [gather] returns. *)
Lemma gather_complete (outs : list (Exc + A)) (sched : list nat) :
  (forall k, (k < length outs)%nat -> In k sched) ->
  (forall k, (k < length outs)%nat -> exists a, outs !! k = Some (inr a)) ->
  exists l, gather outs sched = Ret l.
Proof.
  intros Hcov Hok. unfold gather.
  destruct (fill_complete outs sched (repeat None (length outs)))
    as [slots [F [Hlen Hfull]]].
  - apply repeat_length.
  - exact Hok.
  - intros k Hk. left. apply Hcov. exact Hk.
  - rewrite F. destruct (collect_full slots) as [l Hl].
    + rewrite Hlen. exact Hfull.
    + rewrite Hl. exists l. reflexivity.
Qed.

End Gather.

(* ------------------------------------------------------------------ *)
(** ** The orchestrator's log and outcome *)

Lemma aforward_unfold (p : Provider) (sched : list nat) (v : string)
    (ds : list string) :
  aforward p sched v ds =
  match find_director p v ds with
  | inl e => ([FindCall v ds], Raise e)
  | inr add =>
      let gens := FindCall v ds :: map (GenCall v) (ds ++ [add]) in
      match gather (map (gen_director_cut p v) (ds ++ [add])) sched with
      | Raise e => (gens, Raise e)
      | Wait => (gens, Wait)
      | Ret ideas =>
          match director_judge p ideas with
          | inl e => (gens ++ [JudgeCall ideas], Raise e)
          | inr j =>
              match select_best (director_rankings j) ideas with
              | inl e => (gens ++ [JudgeCall ideas], Raise e)
              | inr b => (gens ++ [JudgeCall ideas; Winner b],
                          Ret (mkResultClass add ideas j))
              end
          end
      end
  end.
Proof.
  unfold aforward, call_find, gen_all, call_judge, lift, emit, mret, mbind.
  destruct (find_director p v ds) as [e|add]; simpl; [reflexivity|].
  destruct (gather _ sched) as [ideas|e|]; simpl; try reflexivity.
  destruct (director_judge p ideas) as [e|j]; simpl; [reflexivity|].
  destruct (select_best _ ideas) as [e|b]; simpl; reflexivity.
Qed.

Definition is_find_call (ev : Event) : bool :=
  match ev with FindCall _ _ => true | _ => false end.
Definition is_gen_call (ev : Event) : bool :=
  match ev with GenCall _ _ => true | _ => false end.
Definition is_judge_call (ev : Event) : bool :=
  match ev with JudgeCall _ => true | _ => false end.
Definition is_configure (ev : Event) : bool :=
  match ev with Configure _ => true | _ => false end.

Lemma filter_gen_calls (v : string) (l : list string) :
  List.filter is_gen_call (map (GenCall v) l) = map (GenCall v) l.
Proof. induction l as [|d l IH]; simpl; [reflexivity|]. f_equal. exact IH. Qed.

Lemma filter_no_gen (v : string) (f : Event -> bool) (l : list string) :
  (forall d, f (GenCall v d) = false) ->
  List.filter f (map (GenCall v) l) = [].
Proof. intros H. induction l as [|d l IH]; simpl; [reflexivity|]. rewrite H. exact IH. Qed.

(** C1: whenever [aforward] returns, its breakdown list holds, in order,
    the outputs of the breakdown calls for the supplied directors followed
    by the suggested director, whatever the completion order [sched] of the
    concurrent calls. *)
Theorem aforward_breakdown_order (p : Provider) (sched : list nat)
    (video : string) (directors : list string) (r : ResultClass)
    (H : snd (aforward p sched video directors) = Ret r) :
  exists add,
    find_director p video directors = inr add /\
    r.(additional_director) = add /\
    map (gen_director_cut p video) (directors ++ [add]) = map inr r.(director_ideas).
Proof.
  rewrite aforward_unfold in H.
  destruct (find_director p video directors) as [e|add]; [discriminate|].
  destruct (gather _ sched) as [ideas|e|] eqn:G; try discriminate.
  destruct (director_judge p ideas) as [e|j]; [discriminate|].
  destruct (select_best _ ideas) as [e|b]; [discriminate|].
  simpl in H. injection H as <-.
  exists add. split; [reflexivity|]. split; [reflexivity|].
  exact (gather_ret _ _ _ G).
Qed.

(** C3 (amended): once the suggestion call has returned, [aforward] issues
    exactly one breakdown call per supplied director plus one for the
    suggested director (N+1 calls), and a returned result holds N+1
    breakdowns, all judged by a single judge call; its rank sequence is the
    judge's output unchanged, whose length is not checked. *)
Theorem aforward_call_count (p : Provider) (sched : list nat) (video : string)
    (directors : list string) (add : string)
    (Hf : find_director p video directors = inr add) :
  List.filter is_gen_call (fst (aforward p sched video directors)) =
    map (GenCall video) (directors ++ [add]) /\
  length (List.filter is_gen_call (fst (aforward p sched video directors))) =
    (length directors + 1)%nat /\
  (forall r, snd (aforward p sched video directors) = Ret r ->
     length r.(director_ideas) = (length directors + 1)%nat /\
     List.filter is_judge_call (fst (aforward p sched video directors)) =
       [JudgeCall r.(director_ideas)] /\
     director_judge p r.(director_ideas) = inr r.(director_ranks)).
Proof.
  assert (Hg : List.filter is_gen_call (fst (aforward p sched video directors)) =
               map (GenCall video) (directors ++ [add])).
  { rewrite aforward_unfold, Hf.
    destruct (gather _ sched) as [ideas|e|]; simpl;
      try (rewrite filter_gen_calls; reflexivity).
    destruct (director_judge p ideas); [|destruct (select_best _ ideas)]; simpl;
      rewrite List.filter_app, filter_gen_calls; simpl; apply app_nil_r. }
  split; [exact Hg|]. split.
  { rewrite Hg, length_map, length_app. reflexivity. }
  intros r H. pose proof H as H0.
  rewrite aforward_unfold, Hf in H |- *.
  destruct (gather _ sched) as [ideas|e|] eqn:G; try discriminate.
  destruct (director_judge p ideas) as [e|j] eqn:J; [discriminate|].
  destruct (select_best _ ideas) as [e|b]; [discriminate|].
  simpl in H. injection H as <-. simpl.
  apply gather_ret in G.
  split; [|split].
  - apply (f_equal length) in G. rewrite !length_map, length_app in G. simpl in G. lia.
  - rewrite List.filter_app, filter_no_gen by reflexivity. reflexivity.
  - exact J.
Qed.

Definition provider_one_rank : Provider :=
  mkProvider (fun _ _ => inr "Hayao Miyazaki") (fun _ d => inr (cut_named d))
    (fun _ => inr (mkJudgeOut [1]%Z "")).

(** C3 (counterexample): with one supplied director, two breakdowns are
    judged, but a judge answering a single rank makes [aforward] return a
    result whose rank sequence has length 1, not 2. *)
Lemma aforward_rank_length_unchecked :
  exists r,
    snd (aforward provider_one_rank [0; 1]%nat "a lighthouse at dawn" ["Wes Anderson"]) = Ret r /\
    length r.(director_ideas) = 2%nat /\
    length r.(director_ranks).(director_rankings) = 1%nat.
Proof. eexists. split; [reflexivity|split; reflexivity]. Qed.

(* ------------------------------------------------------------------ *)
(** ** Error propagation *)

Lemma run_bake_off_configured (env : option string) (h : LM) (p : Provider)
    (sched : list nat) (video : string) (directors : option string) :
  run_bake_off env (Some h) p sched video directors =
    (Some h, aforward p sched video (parse_directors directors)).
Proof.
  unfold run_bake_off, mret, mbind. simpl.
  destruct (aforward p sched video (parse_directors directors)). reflexivity.
Qed.

Lemma run_bake_off_unconfigured (env : option string) (p : Provider)
    (sched : list nat) (v : string) (d : option string) :
  run_bake_off env None p sched v d =
  match env with
  | Some k =>
      if truthy k
      then (Some (mkLM "openrouter/moonshotai/kimi-k2:free" k),
            (Configure k :: fst (aforward p sched v (parse_directors d)),
             snd (aforward p sched v (parse_directors d))))
      else (None, ([Diagnostic], Raise (SystemExit 1)))
  | None => (None, ([Diagnostic], Raise (SystemExit 1)))
  end.
Proof.
  unfold run_bake_off, setup_dspy_provider, mbind.
  destruct env as [k|]; [|reflexivity].
  destruct (truthy k); [|reflexivity].
  destruct (aforward p sched v (parse_directors d)). reflexivity.
Qed.

Lemma in_map_lookup {X Y} (f : X -> Y) (l : list X) (j : nat) (y : Y) :
  map f l !! j = Some y -> exists x, In x l /\ f x = y.
Proof.
  intros H. rewrite list_lookup_fmap in H.
  destruct (l !! j) as [x|] eqn:E; simpl in H; [|discriminate].
  injection H as <-. exists x. split; [|reflexivity].
  apply list_elem_of_In. eapply list_elem_of_lookup_2. exact E.
Qed.

Lemma run_bake_off_setup_ok (env : option string) (lm : option LM) (p : Provider)
    (sched : list nat) (video : string) (directors : option string)
    (Hcfg : lm <> None \/ exists k, env = Some k /\ truthy k = true) :
  exists pre,
    snd (run_bake_off env lm p sched video directors) =
      (pre ++ fst (aforward p sched video (parse_directors directors)),
       snd (aforward p sched video (parse_directors directors))) /\
    Forall (fun ev => is_configure ev = true) pre.
Proof.
  destruct lm as [h|].
  - exists []. rewrite run_bake_off_configured. simpl.
    destruct (aforward p sched video (parse_directors directors)).
    split; [reflexivity|constructor].
  - destruct Hcfg as [Hn|[k [-> Hk]]]; [congruence|].
    exists [Configure k]. rewrite run_bake_off_unconfigured, Hk. simpl.
    split; [reflexivity|repeat constructor].
Qed.

Lemma map_inr_inj {X Y} (l1 l2 : list Y) :
  map (@inr X Y) l1 = map inr l2 -> l1 = l2.
Proof.
  revert l2. induction l1 as [|a l1 IH]; intros [|b l2] H; simpl in H;
    try discriminate; [reflexivity|].
  injection H as -> H. f_equal. exact (IH _ H).
Qed.

Lemma filter_configure_prefix (pre : list Event) (f : Event -> bool) (l : list Event) :
  Forall (fun ev => is_configure ev = true) pre ->
  (forall ev, is_configure ev = true -> f ev = false) ->
  List.filter f (pre ++ l) = List.filter f l.
Proof.
  intros Hpre Hf. induction Hpre as [|ev pre Hev _ IH]; simpl; [reflexivity|].
  rewrite (Hf ev Hev). exact IH.
Qed.

(** C6: once the provider setup succeeds (the handle was already
    configured, or the key is set and the handle is created by this call),
    a failing task call makes [run_bake_off] raise that call's exception
    unchanged and return no result: a failing suggestion call raises its
    error; if a failing breakdown call completes, the error raised is the one
    of a failing breakdown call (the first failure to complete), whether or
    not the other breakdown calls ever complete; if all breakdown calls
    complete and the judge call fails on the breakdowns passed to it, its
    error is raised.  No call is retried: the log holds exactly one
    suggestion call, at most one judge call, and each breakdown call exactly
    once. *)
Theorem run_bake_off_propagates (env : option string) (lm : option LM) (p : Provider)
    (sched : list nat) (video : string) (directors : option string)
    (Hcfg : lm <> None \/ exists k, env = Some k /\ truthy k = true) :
  let ds := parse_directors directors in
  let out := snd (run_bake_off env lm p sched video directors) in
  (forall e, find_director p video ds = inl e -> snd out = Raise e) /\
  (forall add, find_director p video ds = inr add ->
     (forall i d e, (ds ++ [add]) !! i = Some d -> gen_director_cut p video d = inl e ->
        In i sched ->
        exists d' e', In d' (ds ++ [add]) /\ gen_director_cut p video d' = inl e' /\
                      snd out = Raise e') /\
     (forall cuts e, (forall k, (k < length ds + 1)%nat -> In k sched) ->
        map (gen_director_cut p video) (ds ++ [add]) = map inr cuts ->
        director_judge p cuts = inl e -> snd out = Raise e) /\
     length (List.filter is_find_call (fst out)) = 1%nat /\
     length (List.filter is_judge_call (fst out)) <= 1 /\
     List.filter is_gen_call (fst out) = map (GenCall video) (ds ++ [add])).
Proof.
  cbv zeta.
  destruct (run_bake_off_setup_ok env lm p sched video directors Hcfg) as [pre [Hout Hpre]].
  rewrite Hout. simpl fst. simpl snd.
  rewrite !(filter_configure_prefix pre) by (exact Hpre || (intros [] ?; easy)).
  set (ds := parse_directors directors) in *.
  split.
  { intros e He. rewrite aforward_unfold, He. reflexivity. }
  intros add Ha.
  split; [|split; [|split; [|split]]].
  - intros i d e Hi He Hin.
    destruct (gather_raise (map (gen_director_cut p video) (ds ++ [add])) sched i e Hin)
      as [j [e' [Hj G]]].
    + rewrite list_lookup_fmap, Hi. simpl. rewrite He. reflexivity.
    + destruct (in_map_lookup _ _ _ _ Hj) as [d' [Hd' He']].
      exists d', e'. split; [exact Hd'|]. split; [exact He'|].
      rewrite aforward_unfold, Ha, G. reflexivity.
  - intros cuts e Hcov Hcuts Hj.
    destruct (gather_complete (map (gen_director_cut p video) (ds ++ [add])) sched)
      as [ideas G].
    { intros k Hk. apply Hcov. rewrite length_map, length_app in Hk. simpl in Hk. lia. }
    { intros k Hk. rewrite Hcuts in Hk |- *. rewrite length_map in Hk.
      destruct (lookup_lt_is_Some_2 _ _ Hk) as [c Hc].
      exists c. rewrite list_lookup_fmap, Hc. reflexivity. }
    pose proof (gather_ret _ _ _ G) as Hideas. rewrite Hcuts in Hideas.
    apply map_inr_inj in Hideas. subst ideas.
    rewrite aforward_unfold, Ha, G, Hj. reflexivity.
  - rewrite aforward_unfold, Ha.
    destruct (gather _ sched) as [ideas|e|]; simpl;
      [destruct (director_judge p ideas); [|destruct (select_best _ ideas)]|..];
      simpl; rewrite ?List.filter_app, filter_no_gen by reflexivity; reflexivity.
  - rewrite aforward_unfold, Ha.
    destruct (gather _ sched) as [ideas|e|]; simpl;
      [destruct (director_judge p ideas); [|destruct (select_best _ ideas)]|..];
      simpl; rewrite ?List.filter_app, ?filter_no_gen by reflexivity; simpl; lia.
  - apply (proj1 (aforward_call_count p sched video ds add Ha)).
Qed.

(* ------------------------------------------------------------------ *)
(** ** Provider setup *)

(** Sequential requests of one process, the global [lm] threaded through. *)
Fixpoint session (env_key : option string) (lm : option LM) (p : Provider)
    (reqs : list (list nat * string * option string)) : option LM * list Event :=
  match reqs with
  | [] => (lm, [])
  | (sched, v, d) :: rest =>
      let (lm1, m) := run_bake_off env_key lm p sched v d in
      let (lm2, log2) := session env_key lm1 p rest in
      (lm2, fst m ++ log2)
  end.

(** The same sequence of requests, keeping each call's log and outcome. *)
Fixpoint session_runs (env_key : option string) (lm : option LM) (p : Provider)
    (reqs : list (list nat * string * option string)) :
    option LM * list (M ResultClass) :=
  match reqs with
  | [] => (lm, [])
  | (sched, v, d) :: rest =>
      let (lm1, m) := run_bake_off env_key lm p sched v d in
      let (lm2, outs) := session_runs env_key lm1 p rest in
      (lm2, m :: outs)
  end.

Lemma session_runs_log (env : option string) (p : Provider)
    (reqs : list (list nat * string * option string)) :
  forall lm,
  session env lm p reqs =
    (fst (session_runs env lm p reqs), concat (map fst (snd (session_runs env lm p reqs)))).
Proof.
  induction reqs as [|[[sched v] d] rest IH]; intros lm; cbn [session session_runs];
    [reflexivity|].
  destruct (run_bake_off env lm p sched v d) as [lm1 m].
  rewrite (IH lm1). destruct (session_runs env lm1 p rest) as [lm2 outs]. reflexivity.
Qed.

Lemma aforward_no_configure (p : Provider) (sched : list nat) (v : string)
    (ds : list string) :
  List.filter is_configure (fst (aforward p sched v ds)) = [].
Proof.
  rewrite aforward_unfold.
  destruct (find_director p v ds) as [e|add]; [reflexivity|].
  destruct (gather _ sched) as [ideas|e|]; simpl;
    [destruct (director_judge p ideas); [|destruct (select_best _ ideas)]|..];
    simpl; rewrite ?List.filter_app, ?filter_no_gen by reflexivity; reflexivity.
Qed.

Lemma session_configures_at_most_once (env : option string) (p : Provider)
    (reqs : list (list nat * string * option string)) :
  forall lm,
  length (List.filter is_configure (snd (session env lm p reqs))) <=
    (match lm with Some _ => 0 | None => 1 end)%nat.
Proof.
  induction reqs as [|[[sched v] d] rest IH]; intros lm; simpl; [lia|].
  destruct lm as [h|].
  - rewrite run_bake_off_configured.
    specialize (IH (Some h)).
    destruct (session env (Some h) p rest) as [lm2 log2]. simpl in *.
    rewrite List.filter_app, aforward_no_configure. simpl. exact IH.
  - rewrite run_bake_off_unconfigured.
    destruct env as [k|]; [destruct (truthy k)|].
    + specialize (IH (Some (mkLM "openrouter/moonshotai/kimi-k2:free" k))).
      destruct (session _ _ p rest) as [lm2 log2]. simpl in *.
      rewrite List.filter_app, aforward_no_configure. simpl. lia.
    + specialize (IH None).
      destruct (session _ None p rest) as [lm2 log2]. simpl in *. exact IH.
    + specialize (IH None).
      destruct (session _ None p rest) as [lm2 log2]. simpl in *. exact IH.
Qed.

(** C9 (counterexample): importing the module reads no key and cannot
    exit; without a key, the exit happens inside the first [run_bake_off]
    call. *)
Lemma missing_key_exits_in_first_request :
  module_import None = (None, Ret tt) /\
  run_bake_off None None provider_one_rank [0; 1; 2; 3]%nat
    "a lighthouse at dawn" None = (None, ([Diagnostic], Raise (SystemExit 1))).
Proof. split; reflexivity. Qed.

(** C9 (amended): the key is read by [run_bake_off] when the model handle
    is uninitialized.  If the key is absent (or empty), the call prints the
    diagnostic and raises [SystemExit 1] before parsing the directors or
    making any model call.  If it is present, the handle is created and
    configured first, synchronously, and then the orchestration runs.  Over
    any sequence of requests the handle is configured at most once. *)
Theorem provider_setup_lazy_once (env : option string) (p : Provider) :
  (forall sched v d,
     match env with Some k => truthy k = false | None => True end ->
     run_bake_off env None p sched v d = (None, ([Diagnostic], Raise (SystemExit 1)))) /\
  (forall k sched v d, env = Some k -> truthy k = true ->
     run_bake_off env None p sched v d =
       (Some (mkLM "openrouter/moonshotai/kimi-k2:free" k),
        (Configure k :: fst (aforward p sched v (parse_directors d)),
         snd (aforward p sched v (parse_directors d))))) /\
  (forall lm reqs,
     length (List.filter is_configure (snd (session env lm p reqs))) <= 1).
Proof.
  split; [|split].
  - intros sched v d Henv. rewrite run_bake_off_unconfigured.
    destruct env as [k|]; [rewrite Henv|]; reflexivity.
  - intros k sched v d -> Hk. rewrite run_bake_off_unconfigured, Hk. reflexivity.
  - intros lm reqs. pose proof (session_configures_at_most_once env p reqs lm).
    destruct lm; lia.
Qed.

(* ------------------------------------------------------------------ *)
(** ** Concrete runs *)

(** The task layer of the end-to-end scenario: suggestion "Hayao Miyazaki",
    judge ranks [[2; 3; 1]]. *)
Definition provider_lighthouse : Provider :=
  mkProvider (fun _ _ => inr "Hayao Miyazaki") (fun _ d => inr (cut_named d))
    (fun _ => inr (mkJudgeOut [2; 3; 1]%Z "")).

(** The same task layer with a judge that fails. *)
Definition provider_judge_down : Provider :=
  mkProvider (fun _ _ => inr "Hayao Miyazaki") (fun _ d => inr (cut_named d))
    (fun _ => inl (TransportError "judge unavailable")).

Definition lighthouse_result : ResultClass :=
  mkResultClass "Hayao Miyazaki"
    [cut_named "Wes Anderson"; cut_named "Bong Joon-ho"; cut_named "Hayao Miyazaki"]
    (mkJudgeOut [2; 3; 1]%Z "").

Definition lighthouse_key : LM := mkLM "openrouter/moonshotai/kimi-k2:free" "k".

Lemma aforward_breakdown_order_witness :
  snd (aforward provider_lighthouse [2; 0; 1]%nat "a lighthouse at dawn"
         ["Wes Anderson"; "Bong Joon-ho"]) = Ret lighthouse_result /\
  exists add,
    find_director provider_lighthouse "a lighthouse at dawn"
      ["Wes Anderson"; "Bong Joon-ho"] = inr add /\
    lighthouse_result.(additional_director) = add /\
    map (gen_director_cut provider_lighthouse "a lighthouse at dawn")
      (["Wes Anderson"; "Bong Joon-ho"] ++ [add]) =
      map inr lighthouse_result.(director_ideas).
Proof.
  split; [reflexivity|].
  apply (aforward_breakdown_order provider_lighthouse [2; 0; 1]%nat
           "a lighthouse at dawn" ["Wes Anderson"; "Bong Joon-ho"] lighthouse_result).
  reflexivity.
Defined.

Lemma select_best_first_min_witness :
  [2; 3; 1]%Z <> [] /\
  (exists i m,
     [2; 3; 1]%Z !! i = Some m /\
     (forall j x, [2; 3; 1]%Z !! j = Some x -> (m <= x)%Z) /\
     (forall j x, (j < i)%nat -> [2; 3; 1]%Z !! j = Some x -> (m < x)%Z) /\
     select_best [2; 3; 1]%Z lighthouse_result.(director_ideas) =
       match lighthouse_result.(director_ideas) !! i with
       | Some w => inr w | None => inl IndexError end) /\
  select_best [2; 1; 1; 3]%Z [cut_named "A"; cut_named "B"; cut_named "C"; cut_named "D"] =
    inr (cut_named "B").
Proof.
  split; [discriminate|].
  apply (select_best_first_min [2; 3; 1]%Z lighthouse_result.(director_ideas)
           (cut_named "A") (cut_named "B") (cut_named "C") (cut_named "D")).
  discriminate.
Defined.

Lemma aforward_call_count_witness :
  find_director provider_lighthouse "a lighthouse at dawn"
    ["Wes Anderson"; "Bong Joon-ho"] = inr "Hayao Miyazaki" /\
  List.filter is_gen_call
    (fst (aforward provider_lighthouse [0; 1; 2]%nat "a lighthouse at dawn"
            ["Wes Anderson"; "Bong Joon-ho"])) =
    map (GenCall "a lighthouse at dawn")
      (["Wes Anderson"; "Bong Joon-ho"] ++ ["Hayao Miyazaki"]) /\
  length (List.filter is_gen_call
    (fst (aforward provider_lighthouse [0; 1; 2]%nat "a lighthouse at dawn"
            ["Wes Anderson"; "Bong Joon-ho"]))) = (2 + 1)%nat /\
  (forall r, snd (aforward provider_lighthouse [0; 1; 2]%nat "a lighthouse at dawn"
                    ["Wes Anderson"; "Bong Joon-ho"]) = Ret r ->
     length r.(director_ideas) = (2 + 1)%nat /\
     List.filter is_judge_call
       (fst (aforward provider_lighthouse [0; 1; 2]%nat "a lighthouse at dawn"
               ["Wes Anderson"; "Bong Joon-ho"])) = [JudgeCall r.(director_ideas)] /\
     director_judge provider_lighthouse r.(director_ideas) = inr r.(director_ranks)).
Proof.
  split; [reflexivity|].
  apply (aforward_call_count provider_lighthouse [0; 1; 2]%nat "a lighthouse at dawn"
           ["Wes Anderson"; "Bong Joon-ho"] "Hayao Miyazaki").
  reflexivity.
Defined.

Lemma run_bake_off_propagates_witness :
  (@None LM <> None \/ exists k, Some "k" = Some k /\ truthy k = true) /\
  snd (snd (run_bake_off (Some "k") None provider_judge_down [2; 0; 1]%nat
              "a lighthouse at dawn" (Some "Wes Anderson, Bong Joon-ho"))) =
    Raise (TransportError "judge unavailable").
Proof.
  assert (Hc : @None LM <> None \/ exists k, Some "k" = Some k /\ truthy k = true)
    by (right; exists "k"; split; reflexivity).
  split; [exact Hc|].
  destruct (run_bake_off_propagates (Some "k") None provider_judge_down
              [2; 0; 1]%nat "a lighthouse at dawn" (Some "Wes Anderson, Bong Joon-ho") Hc)
    as [_ H2].
  destruct (H2 "Hayao Miyazaki" eq_refl) as [_ [H3 _]].
  apply (H3 [cut_named "Wes Anderson"; cut_named "Bong Joon-ho"; cut_named "Hayao Miyazaki"]).
  - intros k Hk. simpl in Hk. simpl.
    destruct k as [|[|[|k]]]; [right; left | right; right; left | left | lia]; reflexivity.
  - reflexivity.
  - reflexivity.
Defined.

Definition cards_bca : list (Z * DirectorCut) :=
  [(1%Z, cut_named "B"); (2%Z, cut_named "C"); (3%Z, cut_named "A")].

Lemma format_results_sorted_witness :
  format_results_html (Some result_abc) = inr (ResultsPage "C" cards_bca "") /\
  Sorted rank_le cards_bca.
Proof.
  split; [reflexivity|].
  apply (proj1 (format_results_sorted result_abc "C" "" cards_bca eq_refl)).
Defined.

Lemma blank_idea_no_output_witness :
  (exists v, Some "   " = Some v /\ strip v = EmptyString) /\
  handle_submit (fun _ _ => Ret lighthouse_result) (Some "   ") None = ([], Returned None).
Proof.
  assert (H : Some "   " = None \/ exists v, Some "   " = Some v /\ strip v = EmptyString)
    by (right; exists "   "; split; reflexivity).
  split; [exists "   "; split; reflexivity|].
  apply (blank_idea_no_output (fun _ _ => Ret lighthouse_result) (Some "   ") None H).
Defined.

(* ================================================================== *)
(** * Further properties of the code *)

(* ------------------------------------------------------------------ *)
(** ** [strip] results and parsed director names *)

Definition starts_nonspace (s : string) : Prop :=
  match s with EmptyString => True | String c _ => isspace c = false end.

Lemma lstrip_starts (s : string) : starts_nonspace (lstrip s).
Proof.
  induction s as [|c s IH]; simpl; [exact I|].
  destruct (isspace c) eqn:E; [exact IH|exact E].
Qed.

Lemma rstrip_starts (s : string) : starts_nonspace s -> starts_nonspace (rstrip s).
Proof.
  destruct s as [|c s]; simpl; [auto|]. intros Hc.
  destruct (rstrip s); [rewrite Hc|]; exact Hc.
Qed.

Lemma lstrip_of_starts (s : string) : starts_nonspace s -> lstrip s = s.
Proof. destruct s as [|c s]; simpl; [reflexivity|]. intros ->. reflexivity. Qed.

Lemma rstrip_cons (c : ascii) (s : string) :
  rstrip (String c s) =
  match rstrip s with
  | EmptyString => if isspace c then EmptyString else String c EmptyString
  | _ => String c (rstrip s)
  end.
Proof. reflexivity. Qed.

Lemma rstrip_idem (s : string) : rstrip (rstrip s) = rstrip s.
Proof.
  induction s as [|c s IH]; [reflexivity|].
  rewrite (rstrip_cons c s). destruct (rstrip s) as [|a r] eqn:E.
  - destruct (isspace c) eqn:Hc; [reflexivity|].
    rewrite rstrip_cons. simpl. rewrite Hc. reflexivity.
  - rewrite rstrip_cons, IH. reflexivity.
Qed.

Lemma strip_idem (s : string) : strip (strip s) = strip s.
Proof.
  unfold strip. rewrite (lstrip_of_starts (rstrip (lstrip s))).
  - apply rstrip_idem.
  - apply rstrip_starts, lstrip_starts.
Qed.

Fixpoint no_comma (s : string) : bool :=
  match s with
  | EmptyString => true
  | String c s' => negb (Ascii.eqb c ",") && no_comma s'
  end.

Lemma lstrip_no_comma (s : string) : no_comma s = true -> no_comma (lstrip s) = true.
Proof.
  induction s as [|c s IH]; simpl; [auto|]. intros H.
  destruct (isspace c); [|exact H].
  apply IH. apply andb_prop in H as [_ H']. exact H'.
Qed.

Lemma rstrip_no_comma (s : string) : no_comma s = true -> no_comma (rstrip s) = true.
Proof.
  induction s as [|c s IH]; [auto|]. intros H.
  simpl in H. apply andb_prop in H as [Hc H'].
  rewrite rstrip_cons. destruct (rstrip s) as [|a r] eqn:E.
  - destruct (isspace c); simpl; [reflexivity|]. rewrite Hc. reflexivity.
  - simpl. rewrite Hc. simpl. apply IH. exact H'.
Qed.

Lemma strip_no_comma (s : string) : no_comma s = true -> no_comma (strip s) = true.
Proof. intros H. apply rstrip_no_comma, lstrip_no_comma, H. Qed.

Lemma split_comma_no_comma (s : string) :
  Forall (fun d => no_comma d = true) (split_comma s).
Proof.
  induction s as [|c s IH]; simpl; [repeat constructor|].
  destruct (Ascii.eqb c ",") eqn:E; [constructor; [reflexivity|exact IH]|].
  destruct (split_comma s) as [|h t]; simpl.
  - constructor; [simpl; rewrite E; reflexivity|constructor].
  - inversion IH; subst. constructor; [simpl; rewrite E; auto|auto].
Qed.

Definition clean_name (n : string) : Prop :=
  n <> EmptyString /\ strip n = n /\ no_comma n = true.

Lemma kept_names_clean (l : list string) :
  Forall (fun d => no_comma d = true) l ->
  Forall clean_name (map strip (List.filter (fun d => truthy (strip d)) l)).
Proof.
  induction l as [|d l IH]; simpl; intros H; [constructor|].
  inversion H as [|? ? Hd Hl]; subst.
  destruct (truthy (strip d)) eqn:T; simpl; [|auto].
  constructor; [|auto].
  split; [|split].
  - intros E. rewrite E in T. discriminate.
  - apply strip_idem.
  - apply strip_no_comma, Hd.
Qed.

Lemma default_directors_clean : Forall clean_name default_directors.
Proof. repeat constructor; try discriminate; reflexivity. Qed.

(** The director list handed to the orchestrator is never empty, and each
    name in it is non-empty, has no surrounding whitespace and no comma. *)
Theorem parse_directors_clean (directors : option string) :
  parse_directors directors <> [] /\ Forall clean_name (parse_directors directors).
Proof.
  unfold parse_directors.
  destruct directors as [s|]; [|split; [discriminate|apply default_directors_clean]].
  destruct (truthy (strip s)); [|split; [discriminate|apply default_directors_clean]].
  pose proof (kept_names_clean (split_comma s) (split_comma_no_comma s)) as Hc.
  destruct (map strip _) as [|n l]; [split; [discriminate|apply default_directors_clean]|].
  split; [discriminate|exact Hc].
Qed.

(* ------------------------------------------------------------------ *)
(** ** Shape of an assembled prompt *)

Lemma string_append_assoc (s t u : string) :
  (s ++ t ++ u)%string = ((s ++ t) ++ u)%string.
Proof. induction s as [|c s IH]; simpl; [reflexivity|rewrite IH; reflexivity]. Qed.

Lemma string_length_append (s t : string) :
  String.length (s ++ t) = (String.length s + String.length t)%nat.
Proof. induction s as [|c s IH]; simpl; [reflexivity|rewrite IH; reflexivity]. Qed.

Lemma ends_with_period (s : string) : ends_with "." (s ++ ".") = true.
Proof.
  assert (Hsub : substring (String.length s) 1 (s ++ ".") = ".").
  { induction s as [|c s IH]; [reflexivity|exact IH]. }
  unfold ends_with. rewrite string_length_append. simpl String.length.
  replace (String.length s + 1 - 1)%nat with (String.length s) by lia.
  rewrite Hsub. apply andb_true_intro. split; [apply Nat.leb_le; lia|reflexivity].
Qed.

Lemma kept_empty_iff (cs : list string) :
  List.filter truthy (map strip (List.filter truthy cs)) = [] <->
  Forall (fun c => strip c = EmptyString) cs.
Proof.
  induction cs as [|c cs IH]; simpl; [split; [constructor|reflexivity]|].
  rewrite Forall_cons.
  destruct c as [|a c']; simpl.
  - rewrite IH. split; [intros H; split; [reflexivity|exact H]|tauto].
  - destruct (strip (String a c')) as [|b r] eqn:E; simpl.
    + rewrite IH. tauto.
    + split; [discriminate|intros [H _]; discriminate H].
Qed.

Lemma kept_nonempty (cs : list string) :
  Forall (fun x => x <> EmptyString) (List.filter truthy (map strip (List.filter truthy cs))).
Proof.
  apply Forall_forall. intros x Hx. apply list_elem_of_In, filter_In in Hx as [_ Hx].
  intros ->. discriminate Hx.
Qed.

Lemma join_empty (sep : string) (l : list string) :
  Forall (fun x => x <> EmptyString) l -> join sep l = EmptyString -> l = [].
Proof.
  intros H. destruct l as [|x l]; [reflexivity|].
  inversion H as [|? ? Hx _]; subst.
  destruct x as [|a r]; [contradiction|].
  unfold join. destruct l; simpl; discriminate.
Qed.

(** An assembled prompt is empty exactly when all seven fields are blank;
    otherwise it is the joined non-blank stripped fields with their first
    character upper-cased and one ["."] appended, so it ends with a period. *)
Theorem assemble_prompt_shape (d : DirectorCut) :
  (assemble_prompt d = EmptyString <->
   Forall (fun c => strip c = EmptyString) (components d)) /\
  (assemble_prompt d <> EmptyString ->
   ends_with "." (assemble_prompt d) = true /\
   exists c rest,
     join ", " (List.filter truthy (map strip (List.filter truthy (components d)))) =
       String c rest /\
     assemble_prompt d = (upper c ++ rest ++ ".")%string).
Proof.
  unfold assemble_prompt. rewrite <- kept_empty_iff.
  pose proof (join_empty ", " _ (kept_nonempty (components d))) as Hj.
  destruct (join ", " _) as [|c rest] eqn:E.
  - split; [split; [intros _; apply Hj; reflexivity|reflexivity]|].
    intros H; contradiction H; reflexivity.
  - split.
    + split.
      * rewrite string_append_assoc. destruct (upper c ++ rest)%string; discriminate.
      * intros Hk. rewrite Hk in E. discriminate E.
    + intros _. split.
      * rewrite string_append_assoc. apply ends_with_period.
      * exists c, rest. split; reflexivity.
Qed.

(* ------------------------------------------------------------------ *)
(** ** What [aforward] can raise *)

Lemma fill_raise_inv {A} (outs : list (Exc + A)) (sched : list nat)
    (slots : list (option A)) (e : Exc) :
  fill outs sched slots = Raise e -> exists j, outs !! j = Some (inl e).
Proof.
  revert slots. induction sched as [|i rest IH]; simpl; intros slots H; [discriminate|].
  destruct (outs !! i) as [[e0|a]|] eqn:Ei.
  - injection H as ->. exists i. exact Ei.
  - exact (IH _ H).
  - exact (IH _ H).
Qed.

Lemma gather_raise_inv {A} (outs : list (Exc + A)) (sched : list nat) (e : Exc) :
  gather outs sched = Raise e -> exists j, outs !! j = Some (inl e).
Proof.
  unfold gather. destruct (fill _ _ _) as [slots|e0|] eqn:F; try discriminate.
  - destruct (collect slots); discriminate.
  - intros H; injection H as ->. exact (fill_raise_inv _ _ _ _ F).
Qed.

Lemma select_best_raise (rankings : list Z) (ideas : list DirectorCut) (e : Exc) :
  select_best rankings ideas = inl e ->
  (rankings = [] /\ e = ValueError) \/
  (e = IndexError /\ (length ideas < length rankings)%nat).
Proof.
  unfold select_best. destruct rankings as [|x t]; simpl py_min.
  - intros H; injection H as <-. left. split; reflexivity.
  - destruct (py_index_found (x :: t) _ (fold_min_in t x)) as [i Hi]. rewrite Hi.
    destruct (py_index_spec _ _ _ Hi) as [Hli _].
    destruct (ideas !! i) eqn:Ei; [discriminate|].
    intros H; injection H as <-. right. split; [reflexivity|].
    apply lookup_ge_None_1 in Ei. apply lookup_lt_Some in Hli. lia.
Qed.

(** [aforward] raises only the exception of one of its task calls, a
    [ValueError] when the judge returned no rank at all, or an [IndexError]
    when the judge returned more ranks than there are breakdowns. *)
Theorem aforward_raises_only (p : Provider) (sched : list nat) (v : string)
    (ds : list string) (e : Exc)
    (H : snd (aforward p sched v ds) = Raise e) :
  find_director p v ds = inl e \/
  (exists add d, find_director p v ds = inr add /\ In d (ds ++ [add]) /\
                 gen_director_cut p v d = inl e) \/
  (exists add ideas, find_director p v ds = inr add /\
     map (gen_director_cut p v) (ds ++ [add]) = map inr ideas /\
     (director_judge p ideas = inl e \/
      exists j, director_judge p ideas = inr j /\
        ((j.(director_rankings) = [] /\ e = ValueError) \/
         (e = IndexError /\ (length ideas < length j.(director_rankings))%nat)))).
Proof.
  rewrite aforward_unfold in H.
  destruct (find_director p v ds) as [e0|add]; [left; simpl in H; congruence|right].
  destruct (gather _ sched) as [ideas|e0|] eqn:G; simpl in H; try discriminate.
  - right. exists add, ideas. split; [reflexivity|]. split; [exact (gather_ret _ _ _ G)|].
    destruct (director_judge p ideas) as [e1|j]; [left; simpl in H; congruence|right].
    exists j. split; [reflexivity|].
    destruct (select_best _ ideas) as [e1|b] eqn:S; simpl in H; [|discriminate].
    injection H as <-. exact (select_best_raise _ _ _ S).
  - left. injection H as <-.
    destruct (gather_raise_inv _ _ _ G) as [j Hj].
    destruct (in_map_lookup _ _ _ _ Hj) as [d [Hd He]].
    exists add, d. split; [reflexivity|]. split; assumption.
Qed.

Lemma gather_gens_ok (p : Provider) (sched : list nat) (v : string) (all : list string) :
  (forall d, In d all -> exists c, gen_director_cut p v d = inr c) ->
  Permutation sched (seq 0 (length all)) ->
  exists ideas, gather (map (gen_director_cut p v) all) sched = Ret ideas.
Proof.
  intros Hok Hs. apply gather_complete.
  - intros k Hk. rewrite length_map in Hk.
    apply (Permutation_in _ (Permutation_sym Hs)). apply in_seq. lia.
  - intros k Hk. rewrite length_map in Hk.
    destruct (lookup_lt_is_Some_2 _ _ Hk) as [d Hd].
    destruct (Hok d) as [c Hc].
    { apply list_elem_of_In. eapply list_elem_of_lookup_2. exact Hd. }
    exists c. rewrite list_lookup_fmap, Hd. simpl. rewrite Hc. reflexivity.
Qed.

(** When every task call succeeds and completes, and the judge answers an
    empty rank sequence on the breakdowns it is passed, [aforward] makes all
    its calls, the judge call on exactly those breakdowns, and then raises
    [ValueError] (from [min]) without selecting a winner. *)
Theorem aforward_empty_ranking (p : Provider) (sched : list nat) (v : string)
    (ds : list string) (add : string) (cuts : list DirectorCut) (j : JudgeOut)
    (Hf : find_director p v ds = inr add)
    (Hg : map (gen_director_cut p v) (ds ++ [add]) = map inr cuts)
    (Hs : forall k, (k < length ds + 1)%nat -> In k sched)
    (Hj : director_judge p cuts = inr j)
    (Hr : j.(director_rankings) = []) :
  aforward p sched v ds =
    (FindCall v ds :: map (GenCall v) (ds ++ [add]) ++ [JudgeCall cuts],
     Raise ValueError).
Proof.
  destruct (gather_complete (map (gen_director_cut p v) (ds ++ [add])) sched)
    as [ideas G].
  { intros k Hk. apply Hs. rewrite length_map, length_app in Hk. simpl in Hk. lia. }
  { intros k Hk. rewrite Hg in Hk |- *. rewrite length_map in Hk.
    destruct (lookup_lt_is_Some_2 _ _ Hk) as [c Hc].
    exists c. rewrite list_lookup_fmap, Hc. reflexivity. }
  pose proof (gather_ret _ _ _ G) as Hideas. rewrite Hg in Hideas.
  apply map_inr_inj in Hideas. subst ideas.
  destruct j as [rk expl]. simpl in Hr. subst rk.
  rewrite aforward_unfold, Hf, G, Hj. reflexivity.
Qed.

(** A run of [aforward] that returns has made exactly these calls, in
    order: the suggestion call, one breakdown call per director, one judge
    call on the breakdowns, and then displayed as winner the breakdown that
    [select_best] picks, which is one of the returned breakdowns. *)
Theorem aforward_success_log (p : Provider) (sched : list nat) (v : string)
    (ds : list string) (r : ResultClass)
    (H : snd (aforward p sched v ds) = Ret r) :
  exists b,
    fst (aforward p sched v ds) =
      FindCall v ds :: map (GenCall v) (ds ++ [r.(additional_director)]) ++
      [JudgeCall r.(director_ideas); Winner b] /\
    select_best r.(director_ranks).(director_rankings) r.(director_ideas) = inr b /\
    In b r.(director_ideas).
Proof.
  rewrite aforward_unfold in H |- *.
  destruct (find_director p v ds) as [e|add]; [discriminate|].
  destruct (gather _ sched) as [ideas|e|]; try discriminate.
  destruct (director_judge p ideas) as [e|j]; [discriminate|].
  destruct (select_best _ ideas) as [e|b] eqn:S; [discriminate|].
  simpl in H. injection H as <-. exists b. simpl.
  split; [reflexivity|]. split; [exact S|].
  unfold select_best in S.
  destruct (py_min _); [discriminate|]. destruct (py_index _ _); [|discriminate].
  destruct (ideas !! n) eqn:E; [|discriminate]. injection S as <-.
  apply list_elem_of_In. eapply list_elem_of_lookup_2. exact E.
Qed.

(* ------------------------------------------------------------------ *)
(** ** Formatting with mismatched rank counts *)

Lemma build_ranked_long (ideas : list DirectorCut) (rankings : list Z) :
  (length ideas <= length rankings)%nat ->
  build_ranked ideas rankings = inr (combine rankings ideas).
Proof.
  revert rankings. induction ideas as [|d t IH]; intros [|r rs]; simpl; intros H;
    try reflexivity; try lia.
  rewrite IH by lia. reflexivity.
Qed.

Lemma build_ranked_short (ideas : list DirectorCut) (rankings : list Z) :
  (length rankings < length ideas)%nat -> build_ranked ideas rankings = inl IndexError.
Proof.
  revert rankings. induction ideas as [|d t IH]; intros [|r rs]; simpl; intros H;
    try reflexivity; try lia.
  rewrite IH by lia. reflexivity.
Qed.

Lemma map_fst_combine {X Y} (l1 : list X) (l2 : list Y) :
  map fst (combine l1 l2) = firstn (length l2) l1.
Proof.
  revert l1. induction l2 as [|y l2 IH]; intros [|x l1]; simpl; try reflexivity.
  f_equal. apply IH.
Qed.

Lemma map_snd_combine {X Y} (l1 : list X) (l2 : list Y) :
  map snd (combine l1 l2) = firstn (length l1) l2.
Proof.
  revert l2. induction l1 as [|x l1 IH]; intros [|y l2]; simpl; try reflexivity.
  f_equal. apply IH.
Qed.

Lemma combine_firstn_l {X Y} (l1 : list X) (l2 : list Y) :
  combine l1 l2 = combine (firstn (length l2) l1) l2.
Proof.
  revert l1. induction l2 as [|y l2 IH]; intros [|x l1]; simpl; try reflexivity.
  f_equal. apply IH.
Qed.

(** [format_results_html] renders, when the judge gave at least as many
    ranks as there are breakdowns, one card per breakdown: the cards are,
    up to their order, the pairs of the i-th rank and the i-th breakdown, so
    each breakdown appears on exactly one card and the ranks shown are the
    first [len(director_ideas)] ranks (the extra ones are ignored).  With
    fewer ranks than breakdowns it renders its own error panel. *)
Theorem format_results_rank_count (r : ResultClass) :
  ((length r.(director_ideas) <= length r.(director_ranks).(director_rankings))%nat ->
   exists cards,
     format_results_html (Some r) =
       inr (ResultsPage r.(additional_director) cards r.(director_ranks).(explanation)) /\
     Permutation cards
       (combine (firstn (length r.(director_ideas)) r.(director_ranks).(director_rankings))
                r.(director_ideas)) /\
     Permutation (map snd cards) r.(director_ideas) /\
     Permutation (map fst cards)
       (firstn (length r.(director_ideas)) r.(director_ranks).(director_rankings))) /\
  ((length r.(director_ranks).(director_rankings) < length r.(director_ideas))%nat ->
   format_results_html (Some r) = inr (FormatErrorPanel "list index out of range")).
Proof.
  unfold format_results_html, format_body. split; intros H.
  - rewrite build_ranked_long by exact H. eexists. split; [reflexivity|].
    pose proof (proj2 (sort_by_rank_spec
                  (combine r.(director_ranks).(director_rankings) r.(director_ideas)))) as P.
    split; [|split].
    + rewrite <- combine_firstn_l. exact P.
    + rewrite (Permutation_map snd P), map_snd_combine, firstn_all2 by exact H.
      reflexivity.
    + rewrite (Permutation_map fst P), map_fst_combine. reflexivity.
  - rewrite build_ranked_short by exact H. reflexivity.
Qed.

(* ------------------------------------------------------------------ *)
(** ** The submit handler on failures *)

(** A non-blank submission for which [run_bake_off] raises an [Exception]
    shows the progress placeholder, then the error panel with the message
    and trace of that exception, and the handler finishes normally. *)
Theorem handle_submit_error (rb : string -> option string -> run ResultClass)
    (v : string) (directors : option string) (e : Exc)
    (Hv : truthy (strip v) = true) (Hrb : rb v directors = Raise e)
    (He : is_Exception e = true) :
  handle_submit rb (Some v) directors =
    ([mkUpdate LoadingMessage true; mkUpdate (ErrorPanel (exc_str e) e) true],
     Returned None).
Proof.
  unfold handle_submit, run_director_bakeoff. rewrite Hv.
  destruct v as [|a v']; [discriminate|]. simpl. rewrite Hrb.
  unfold bakeoff_handler. rewrite He. reflexivity.
Qed.

(** Through the interface, a missing key is not reported as an error panel:
    the first non-blank submission shows the progress placeholder and then
    the [SystemExit] raised by the setup leaves the handler. *)
Theorem handle_submit_missing_key (p : Provider) (sched : list nat) (v : string)
    (directors : option string) (Hv : truthy (strip v) = true) :
  handle_submit (fun v' d' => snd (snd (run_bake_off None None p sched v' d')))
    (Some v) directors =
    ([mkUpdate LoadingMessage true], Raised (SystemExit 1)).
Proof.
  unfold handle_submit, run_director_bakeoff. rewrite Hv.
  destruct v as [|a v']; [discriminate|]. simpl. reflexivity.
Qed.

(* ------------------------------------------------------------------ *)
(** ** The global model handle over a session *)

(** Once the handle is set it is never replaced, whatever the environment
    holds: later requests do not read the key again. *)
Theorem session_keeps_handle (env : option string) (p : Provider) (h : LM)
    (reqs : list (list nat * string * option string)) :
  fst (session env (Some h) p reqs) = Some h /\
  List.filter is_configure (snd (session env (Some h) p reqs)) = [].
Proof.
  induction reqs as [|[[sched v] d] rest IH]; cbn [session]; [split; reflexivity|].
  rewrite run_bake_off_configured.
  destruct (session env (Some h) p rest) as [lm2 log2]. simpl in *.
  destruct IH as [-> IH]. split; [reflexivity|].
  rewrite List.filter_app, aforward_no_configure, IH. reflexivity.
Qed.

(** Without a key, every request of a session only prints the diagnostic
    and raises [SystemExit 1] ([sys.exit(1)]): no model call is made, no
    request returns a result, and the handle stays unset. *)
Theorem session_without_key (p : Provider)
    (reqs : list (list nat * string * option string)) :
  session_runs None None p reqs =
    (None, repeat ([Diagnostic], Raise (SystemExit 1)) (length reqs)) /\
  session None None p reqs = (None, repeat Diagnostic (length reqs)).
Proof.
  assert (R : session_runs None None p reqs =
                (None, repeat ([Diagnostic], Raise (SystemExit 1)) (length reqs))).
  { induction reqs as [|[[sched v] d] rest IH]; cbn [session_runs]; [reflexivity|].
    rewrite run_bake_off_unconfigured, IH. reflexivity. }
  split; [exact R|].
  rewrite session_runs_log, R. simpl. f_equal. clear R.
  induction (length reqs) as [|n IHn]; simpl; [reflexivity|]. rewrite IHn. reflexivity.
Qed.

(* ------------------------------------------------------------------ *)
(** ** Concrete runs of the further properties *)

Definition provider_empty_ranks : Provider :=
  mkProvider (fun _ _ => inr "Hayao Miyazaki") (fun _ d => inr (cut_named d))
    (fun _ => inr (mkJudgeOut [] "")).

Lemma aforward_raises_only_witness :
  snd (aforward provider_empty_ranks [0; 1]%nat "a lighthouse at dawn" ["Wes Anderson"]) =
    Raise ValueError /\
  (find_director provider_empty_ranks "a lighthouse at dawn" ["Wes Anderson"] = inl ValueError \/
   (exists add d, find_director provider_empty_ranks "a lighthouse at dawn" ["Wes Anderson"] = inr add /\
      In d (["Wes Anderson"] ++ [add]) /\
      gen_director_cut provider_empty_ranks "a lighthouse at dawn" d = inl ValueError) \/
   (exists add ideas,
      find_director provider_empty_ranks "a lighthouse at dawn" ["Wes Anderson"] = inr add /\
      map (gen_director_cut provider_empty_ranks "a lighthouse at dawn") (["Wes Anderson"] ++ [add]) =
        map inr ideas /\
      (director_judge provider_empty_ranks ideas = inl ValueError \/
       exists j, director_judge provider_empty_ranks ideas = inr j /\
         ((j.(director_rankings) = [] /\ ValueError = ValueError) \/
          (ValueError = IndexError /\ (length ideas < length j.(director_rankings))%nat))))).
Proof.
  split; [reflexivity|].
  apply (aforward_raises_only provider_empty_ranks [0; 1]%nat "a lighthouse at dawn"
           ["Wes Anderson"] ValueError).
  reflexivity.
Defined.

Lemma aforward_empty_ranking_witness :
  aforward provider_empty_ranks [1; 0]%nat "a lighthouse at dawn" ["Wes Anderson"] =
    (FindCall "a lighthouse at dawn" ["Wes Anderson"] ::
     map (GenCall "a lighthouse at dawn") (["Wes Anderson"] ++ ["Hayao Miyazaki"]) ++
     [JudgeCall [cut_named "Wes Anderson"; cut_named "Hayao Miyazaki"]], Raise ValueError).
Proof.
  apply (aforward_empty_ranking provider_empty_ranks [1; 0]%nat "a lighthouse at dawn"
           ["Wes Anderson"] "Hayao Miyazaki"
           [cut_named "Wes Anderson"; cut_named "Hayao Miyazaki"] (mkJudgeOut [] "")).
  - reflexivity.
  - reflexivity.
  - intros k Hk. simpl in Hk. simpl.
    destruct k as [|[|k]]; [right; left | left | lia]; reflexivity.
  - reflexivity.
  - reflexivity.
Defined.

Lemma aforward_success_log_witness :
  snd (aforward provider_lighthouse [2; 0; 1]%nat "a lighthouse at dawn"
         ["Wes Anderson"; "Bong Joon-ho"]) = Ret lighthouse_result /\
  exists b,
    fst (aforward provider_lighthouse [2; 0; 1]%nat "a lighthouse at dawn"
           ["Wes Anderson"; "Bong Joon-ho"]) =
      FindCall "a lighthouse at dawn" ["Wes Anderson"; "Bong Joon-ho"] ::
      map (GenCall "a lighthouse at dawn")
        (["Wes Anderson"; "Bong Joon-ho"] ++ [lighthouse_result.(additional_director)]) ++
      [JudgeCall lighthouse_result.(director_ideas); Winner b] /\
    select_best lighthouse_result.(director_ranks).(director_rankings)
      lighthouse_result.(director_ideas) = inr b /\
    In b lighthouse_result.(director_ideas).
Proof.
  split; [reflexivity|].
  apply (aforward_success_log provider_lighthouse [2; 0; 1]%nat "a lighthouse at dawn"
           ["Wes Anderson"; "Bong Joon-ho"] lighthouse_result).
  reflexivity.
Defined.

Lemma handle_submit_error_witness :
  truthy (strip "a lighthouse at dawn") = true /\
  handle_submit (fun v' d' => snd (snd (run_bake_off None (Some lighthouse_key)
                                         provider_judge_down [0; 1; 2]%nat v' d')))
    (Some "a lighthouse at dawn") (Some "Wes Anderson, Bong Joon-ho") =
    ([mkUpdate LoadingMessage true;
      mkUpdate (ErrorPanel "judge unavailable" (TransportError "judge unavailable")) true],
     Returned None).
Proof.
  split; [reflexivity|].
  apply (handle_submit_error _ "a lighthouse at dawn" (Some "Wes Anderson, Bong Joon-ho")
           (TransportError "judge unavailable")); reflexivity.
Defined.

Lemma handle_submit_missing_key_witness :
  truthy (strip "a lighthouse at dawn") = true /\
  handle_submit (fun v' d' => snd (snd (run_bake_off None None provider_lighthouse
                                         [0; 1; 2]%nat v' d')))
    (Some "a lighthouse at dawn") None =
    ([mkUpdate LoadingMessage true], Raised (SystemExit 1)).
Proof.
  split; [reflexivity|].
  apply handle_submit_missing_key. reflexivity.
Defined.
